(** * musages: counting call sites of names imported from a module

    A shallow embedding of [src/musages.py].  The Python syntax tree is a
    tagged variant with one constructor per node class the two visitors
    look at and a generic container for every other class; the two
    [ast.NodeVisitor] subclasses are recursive functions that thread the
    list they append to; the per-file alias dictionary is a [gmap]; the
    directory walk is a fold in the exception monad. *)

From Stdlib Require Import String Ascii List Arith Lia Permutation Sorted.
From stdpp Require Import base option list gmap strings fin_maps.

Import ListNotations.
#[local] Set Warnings "-clear-no-such-hyp".
Local Open Scope string_scope.
Local Open Scope list_scope.

(** ** Syntax trees *)

Module Ast.

(** [ast.alias]: one imported name of an import statement.  [asname] is
    [None] when the statement has no [as] clause. *)
Record alias := Alias { alias_name : string; alias_asname : option string }.

(** The node classes of Python's [ast] module the tool distinguishes.
    [Generic cls children] stands for a node of any other class [cls]
    ([Module], [Expr], [FunctionDef], [If], [keyword], ...), with
    [children] the child nodes in the order [ast.iter_fields] yields them.
    The [alias] children of the two import nodes and the [ctx] child of
    [Name] and [Attribute] have no child nodes of their own and neither
    visitor has a method for them, so visiting them does nothing. *)
#[local] Unset Elimination Schemes.
Inductive node :=
| ImportFrom (module : option string) (names : list alias) (level : nat)
| Import (names : list alias)
| Call (func : node) (args : list node) (keywords : list node)
| Name (id : string)
| Attribute (value : node) (attr : string)
| Generic (cls : string) (children : list node).
#[local] Set Elimination Schemes.

(** Induction with the hypothesis available for every node of a child list. *)
Section node_ind.
Variable P : node -> Prop.
Hypothesis HImportFrom : forall m ns lv, P (ImportFrom m ns lv).
Hypothesis HImport : forall ns, P (Import ns).
Hypothesis HCall : forall f args kws,
  P f -> Forall P args -> Forall P kws -> P (Call f args kws).
Hypothesis HName : forall x, P (Name x).
Hypothesis HAttribute : forall v a, P v -> P (Attribute v a).
Hypothesis HGeneric : forall cls cs, Forall P cs -> P (Generic cls cs).

Fixpoint node_ind' (n : node) : P n :=
  let fix all (l : list node) : Forall P l :=
    match l with
    | [] => ListDef.Forall_nil P
    | x :: l' => ListDef.Forall_cons P x l' (node_ind' x) (all l')
    end in
  match n with
  | ImportFrom m ns lv => HImportFrom m ns lv
  | Import ns => HImport ns
  | Call f args kws => HCall f args kws (node_ind' f) (all args) (all kws)
  | Name x => HName x
  | Attribute v a => HAttribute v a (node_ind' v)
  | Generic cls cs => HGeneric cls cs (all cs)
  end.
End node_ind.

End Ast.
Export Ast.

(** ** Truthiness and string helpers of the source language *)

(** [bool(s)] for a string. *)
Definition str_truthy (s : string) : bool :=
  match s with EmptyString => false | String _ _ => true end.

(** [bool(o)] for an [Optional[str]]: [None] and the empty string are falsy. *)
Definition opt_truthy (o : option string) : bool :=
  match o with None => false | Some s => str_truthy s end.

(** [s.startswith(p)]. *)
Definition startswith (s p : string) : bool := String.prefix p s.

(** ** The [Import] dataclass *)

Record ImportRec := mkImport {
  imp_module : string;
  imp_name : string;
  imp_asname : option string }.

(** [Import.id]: [self.asname or self.name]. *)
Definition imp_id (i : ImportRec) : string :=
  match imp_asname i with
  | Some a => if str_truthy a then a else imp_name i
  | None => imp_name i
  end.

(** [Import.key]: [f"{self.module}.{self.name}"]. *)
Definition imp_key (i : ImportRec) : string :=
  imp_module i ++ "." ++ imp_name i.

(** ** ImportCollector *)

Module ImportCollector.

(** [visit_ImportFrom], before its call to [generic_visit] (which finds
    only [alias] children and leaves [acc] as it is). *)
Definition visit_ImportFrom (name : string) (module : option string)
    (names : list alias) (acc : list ImportRec) : list ImportRec :=
  match module with
  | Some m =>
      if str_truthy m && startswith m name
      then acc ++ map (fun a => mkImport m (alias_name a) (alias_asname a)) names
      else acc
  | None => acc
  end.

(** [visit]: dispatch on the node class, [generic_visit] for every class
    but [ImportFrom]. *)
Fixpoint visit (name : string) (n : node) (acc : list ImportRec)
    : list ImportRec :=
  match n with
  | ImportFrom module names _ => visit_ImportFrom name module names acc
  | Import _ => acc
  | Call func args keywords =>
      let acc := visit name func acc in
      let acc := fold_left (fun a c => visit name c a) args acc in
      fold_left (fun a c => visit name c a) keywords acc
  | Name _ => acc
  | Attribute value _ => visit name value acc
  | Generic _ children => fold_left (fun a c => visit name c a) children acc
  end.

End ImportCollector.

(** ** CallsCollector *)

Module CallsCollector.

(** The test and append of [visit_Call], before its [generic_visit]. *)
Definition visit_Call_hit (ids : gmap string string) (func : node)
    (hits : list string) : list string :=
  match func with
  | Name id =>
      match ids !! id with
      | Some key => hits ++ [key]
      | None => hits
      end
  | _ => hits
  end.

Fixpoint visit (ids : gmap string string) (n : node) (hits : list string)
    : list string :=
  match n with
  | Call func args keywords =>
      let hits := visit_Call_hit ids func hits in
      let hits := visit ids func hits in
      let hits := fold_left (fun h c => visit ids c h) args hits in
      fold_left (fun h c => visit ids c h) keywords hits
  | ImportFrom _ _ _ => hits
  | Import _ => hits
  | Name _ => hits
  | Attribute value _ => visit ids value hits
  | Generic _ children => fold_left (fun h c => visit ids c h) children hits
  end.

End CallsCollector.

(** ** The per-file pass and the directory walk *)

(** The dict comprehension [{i.id: i.key for i in imports}]: the items are
    stored in list order, a later item replacing an earlier one under the
    same key. *)
Definition mapping_of (imports : list ImportRec) : gmap string string :=
  fold_left (fun d i => <[imp_id i := imp_key i]> d) imports ∅.

(** The body of the loop of [get_calls] once the file is parsed. *)
Definition scan_tree (module : string) (tree : node) (hits : list string)
    : list string :=
  let imports := ImportCollector.visit module tree [] in
  let mapping := mapping_of imports in
  CallsCollector.visit mapping tree hits.

Section Scan.

(** [pathlib.Path], and what a failed [open], [read] or [ast.parse] raises. *)
Variable Path : Type.
Variable Exc : Type.

(** [root.glob("**/*.py")]: the paths it yields, in the order it yields them. *)
Variable glob_py : Path -> list Path.

(** [parse_file]: the tree of the file's text, or the exception raised
    while opening, decoding or parsing it. *)
Variable parse_file : Path -> Exc + node.

(** [os.path.isdir]. *)
Variable isdir : Path -> bool.

(** The [for] loop of [get_calls]; an exception of [parse_file] leaves
    the loop and the function, and [hits] with them. *)
Fixpoint get_calls_loop (paths : list Path) (module : string)
    (hits : list string) : Exc + list string :=
  match paths with
  | [] => inr hits
  | path :: rest =>
      match parse_file path with
      | inl e => inl e
      | inr tree => get_calls_loop rest module (scan_tree module tree hits)
      end
  end.

Definition get_calls (root : Path) (module : string) : Exc + list string :=
  get_calls_loop (glob_py root) module [].

End Scan.

(** ** [collections.Counter] *)

(** A [Counter] is a dict, which keeps its keys in insertion order: an
    association list without repeated keys. *)
Definition counter := list (string * nat).

(** [c[elem] = c.get(elem, 0) + 1]. *)
Fixpoint counter_incr (c : counter) (elem : string) : counter :=
  match c with
  | [] => [(elem, 1)]
  | (k, n) :: c' =>
      if String.eqb k elem then (k, S n) :: c'
      else (k, n) :: counter_incr c' elem
  end.

(** [Counter(iterable)]. *)
Definition Counter (iterable : list string) : counter :=
  fold_left counter_incr iterable [].

(** [c[key]], which is [0] for a missing key. *)
Fixpoint counter_get (c : counter) (key : string) : nat :=
  match c with
  | [] => 0
  | (k, n) :: c' => if String.eqb k key then n else counter_get c' key
  end.

(** [sorted(items, key=itemgetter(1), reverse=True)] is stable: of two
    items with the same count the one earlier in [items] comes first. *)
Fixpoint insert_desc (x : string * nat) (l : list (string * nat))
    : list (string * nat) :=
  match l with
  | [] => [x]
  | y :: l' => if (snd y <=? snd x)%nat then x :: y :: l' else y :: insert_desc x l'
  end.

(** [Counter.most_common()] with no argument. *)
Definition most_common (c : counter) : list (string * nat) :=
  fold_right insert_desc [] c.

(** ** [main] *)

Section Main.

Variable Path : Type.
Variable Exc : Type.
Variable glob_py : Path -> list Path.
Variable parse_file : Path -> Exc + node.
Variable isdir : Path -> bool.

(** The namespace [argparse] returns: [-m] is required, [-o] is [None]
    when the option is absent. *)
Record Args := mkArgs {
  args_sources : Path;
  args_m : string;
  args_o : option string }.

(** What a run of [main] does: it raises, or it writes the rows handed to
    [csv.writer.writerows] to the named file, or it pretty-prints the
    counter. *)
Inductive outcome :=
| SystemExit (msg : string)
| Uncaught (e : Exc)
| CsvWritten (file : string) (rows : list (string * nat))
| PrettyPrinted (hits : counter).

Definition main (args : Args) : outcome :=
  if negb (isdir (args_sources args)) then
    SystemExit "given path is not a directory"
  else
    match get_calls Path Exc glob_py parse_file (args_sources args) (args_m args) with
    | inl e => Uncaught e
    | inr calls =>
        let hits := Counter calls in
        match args_o args with
        | Some file =>
            if str_truthy file then CsvWritten file (most_common hits)
            else PrettyPrinted hits
        | None => PrettyPrinted hits
        end
    end.

End Main.

Arguments get_calls_loop {Path Exc} parse_file paths module hits.
Arguments get_calls {Path Exc} glob_py parse_file root module.
Arguments mkArgs {Path} _ _ _.
Arguments args_sources {Path} _.
Arguments args_m {Path} _.
Arguments args_o {Path} _.
Arguments SystemExit {Exc} msg.
Arguments Uncaught {Exc} e.
Arguments CsvWritten {Exc} file rows.
Arguments PrettyPrinted {Exc} hits.
Arguments main {Path Exc} glob_py parse_file isdir args.

(** ** Specification-side views of a tree *)

(** The bare-identifier callees of the [Call] nodes of a tree, in the
    order the visitor meets them. *)
Fixpoint callees (n : node) : list string :=
  match n with
  | Call func args keywords =>
      match func with Name id => [id] | _ => [] end
      ++ callees func
      ++ concat (map callees args)
      ++ concat (map callees keywords)
  | ImportFrom _ _ _ | Import _ | Name _ => []
  | Attribute value _ => callees value
  | Generic _ children => concat (map callees children)
  end.

(** The from-import statements of a tree, in the order the visitor meets
    them, each with its module field and its names. *)
Fixpoint from_imports (n : node) : list (option string * list alias) :=
  match n with
  | ImportFrom module names _ => [(module, names)]
  | Import _ | Name _ => []
  | Call func args keywords =>
      from_imports func
      ++ concat (map from_imports args)
      ++ concat (map from_imports keywords)
  | Attribute value _ => from_imports value
  | Generic _ children => concat (map from_imports children)
  end.

(** The test of [visit_ImportFrom] as the specification words it: the
    module name is there, is not empty and extends the target prefix. *)
Definition module_matches (name : string) (module : option string) : bool :=
  match module with
  | Some m => negb (String.eqb m "") && String.prefix name m
  | None => false
  end.

(** One binding per imported name of a statement. *)
Definition bindings_of (stmt : option string * list alias) : list ImportRec :=
  match fst stmt with
  | Some m => map (fun a => mkImport m (alias_name a) (alias_asname a)) (snd stmt)
  | None => []
  end.

(** The bindings of the statements that pass the test, in statement order. *)
Definition selected_bindings (name : string)
    (stmts : list (option string * list alias)) : list ImportRec :=
  concat (map (fun st => if module_matches name (fst st)
                         then bindings_of st else []) stmts).

(** The identifiers the bindings introduce. *)
Definition bound_ids (imports : list ImportRec) : list string :=
  map imp_id imports.

(** Whether a callee expression is a bare identifier. *)
Definition is_Name (n : node) : bool :=
  match n with Name _ => true | _ => false end.

(** ** Specification-side views of a counter and of the walk *)

(** A counter in which no key is repeated and no count is zero. *)
Definition counter_wf (c : counter) : Prop :=
  NoDup (map fst c) /\ Forall (fun kn => 0 < snd kn) c.


(** The file at [path] parses. *)
Definition parses {Path Exc : Type} (parse_file : Path -> Exc + node)
    (path : Path) : Prop :=
  exists tree, parse_file path = inr tree.

(** The hits of the file at [path] when it parses. *)
Definition file_hits {Path Exc : Type} (parse_file : Path -> Exc + node)
    (module : string) (path : Path) : list string :=
  match parse_file path with
  | inr tree => scan_tree module tree []
  | inl _ => []
  end.

(** ** Sample trees *)

Definition Module_ (body : list node) : node := Generic "Module" body.
Definition Expr (value : node) : node := Generic "Expr" [value].

(** [from acme.mod import foo as f] / [f()] / [f()] *)
Definition file_A : node :=
  Module_ [ ImportFrom (Some "acme.mod") [Alias "foo" (Some "f")] 0;
            Expr (Call (Name "f") [] []);
            Expr (Call (Name "f") [] []) ].

(** [from acme.mod import foo] / [foo()] *)
Definition file_B : node :=
  Module_ [ ImportFrom (Some "acme.mod") [Alias "foo" None] 0;
            Expr (Call (Name "foo") [] []) ].

(** [from target.sub import thing as t] / [thing()] / [t(thing)] *)
Definition file_aliased : node :=
  Module_ [ ImportFrom (Some "target.sub") [Alias "thing" (Some "t")] 0;
            Expr (Call (Name "thing") [] []);
            Expr (Call (Name "t") [Name "thing"] []) ].

(** [from m import f as a] / [from m import g as a] / [a()] *)
Definition file_reimport : node :=
  Module_ [ ImportFrom (Some "m") [Alias "f" (Some "a")] 0;
            ImportFrom (Some "m") [Alias "g" (Some "a")] 0;
            Expr (Call (Name "a") [] []) ].

(** [from os.path import join] / [from json import dumps as d] /
    [join(d(x))] / [print(x)] *)
Definition file_any_module : node :=
  Module_ [ ImportFrom (Some "os.path") [Alias "join" None] 0;
            ImportFrom (Some "json") [Alias "dumps" (Some "d")] 0;
            Expr (Call (Name "join") [Call (Name "d") [Name "x"] []] []);
            Expr (Call (Name "print") [Name "x"] []) ].

(** Whether a string has the character [.]; a Python identifier, and the
    [*] of a wildcard import, has none. *)
Fixpoint has_dot (s : string) : bool :=
  match s with
  | EmptyString => false
  | String c s' => Ascii.eqb c "."%char || has_dot s'
  end.

(** * Properties *)

(** ** Both visitors only append *)

Section Appending.
Context {A : Type}.

(** A fold whose step appends something that depends on the element
    alone appends the concatenation. *)
Lemma fold_left_appending (f : list A -> node -> list A) (g : node -> list A)
    (l : list node) :
  Forall (fun c => forall a, f a c = a ++ g c) l ->
  forall a, fold_left f l a = a ++ concat (map g l).
Proof.
  induction 1 as [|c l Hc _ IH]; intros a; simpl.
  - by rewrite app_nil_r.
  - by rewrite IH, Hc, <- app_assoc.
Qed.
End Appending.

Lemma str_truthy_eqb (s : string) : str_truthy s = negb (String.eqb s "").
Proof. by destruct s. Qed.

Lemma visit_ImportFrom_spec name module names acc :
  ImportCollector.visit_ImportFrom name module names acc
  = acc ++ selected_bindings name [(module, names)].
Proof.
  unfold ImportCollector.visit_ImportFrom, selected_bindings, module_matches,
    bindings_of, startswith; simpl.
  destruct module as [m|]; simpl; [|by rewrite app_nil_r].
  rewrite str_truthy_eqb.
  destruct (negb (m =? "")%string && String.prefix name m); simpl;
    by rewrite app_nil_r.
Qed.

Lemma selected_bindings_app name l1 l2 :
  selected_bindings name (l1 ++ l2)
  = selected_bindings name l1 ++ selected_bindings name l2.
Proof. unfold selected_bindings. by rewrite map_app, concat_app. Qed.

Lemma selected_bindings_concat name (ls : list (list (option string * list alias))) :
  selected_bindings name (concat ls)
  = concat (map (selected_bindings name) ls).
Proof.
  induction ls as [|l ls IH]; simpl; [done|].
  by rewrite selected_bindings_app, IH.
Qed.

(** [ImportCollector] appends to [acc] the bindings of the matching
    from-import statements of the tree, and nothing else. *)
Lemma ImportCollector_visit_spec name n :
  forall acc,
    ImportCollector.visit name n acc
    = acc ++ selected_bindings name (from_imports n).
Proof.
  induction n as [m ns lv|ns|f args kws IHf IHargs IHkws|x|v a IHv|cls cs IHcs]
    using node_ind'; intros acc; simpl.
  - apply visit_ImportFrom_spec.
  - by rewrite app_nil_r.
  - rewrite (fold_left_appending _ _ kws IHkws).
    rewrite (fold_left_appending _ _ args IHargs).
    rewrite IHf, !selected_bindings_app, !selected_bindings_concat.
    by rewrite !map_map, <- !app_assoc.
  - by rewrite app_nil_r.
  - apply IHv.
  - rewrite (fold_left_appending _ _ cs IHcs).
    by rewrite selected_bindings_concat, map_map.
Qed.

Lemma omap_concat {A B} (f : A -> option B) (ls : list (list A)) :
  omap f (concat ls) = concat (map (omap f) ls).
Proof.
  induction ls as [|l ls IH]; simpl; [done|].
  by rewrite omap_app, IH.
Qed.

Lemma visit_Call_hit_spec (ids : gmap string string) func hits :
  CallsCollector.visit_Call_hit ids func hits
  = hits ++ omap (fun x => ids !! x)
                 (match func with Name id => [id] | _ => [] end).
Proof.
  destruct func; simpl; try by rewrite app_nil_r.
  destruct (ids !! id); simpl; [done|by rewrite app_nil_r].
Qed.

(** [CallsCollector] appends to [hits], for each bare-identifier callee
    in visit order that is a key of [ids], the value [ids] has for it. *)
Lemma CallsCollector_visit_spec (ids : gmap string string) n :
  forall hits,
    CallsCollector.visit ids n hits
    = hits ++ omap (fun x => ids !! x) (callees n).
Proof.
  induction n as [m ns lv|ns|f args kws IHf IHargs IHkws|x|v a IHv|cls cs IHcs]
    using node_ind'; intros hits; simpl; try by rewrite app_nil_r.
  - rewrite (fold_left_appending _ _ kws IHkws).
    rewrite (fold_left_appending _ _ args IHargs).
    rewrite IHf, visit_Call_hit_spec.
    rewrite !omap_app, !omap_concat, !map_map.
    by rewrite <- !app_assoc.
  - apply IHv.
  - rewrite (fold_left_appending _ _ cs IHcs).
    by rewrite omap_concat, map_map.
Qed.

(** The hits of one file. *)
Lemma scan_tree_spec module tree hits :
  scan_tree module tree hits
  = hits ++ omap (fun x => mapping_of (selected_bindings module (from_imports tree)) !! x)
                 (callees tree).
Proof.
  unfold scan_tree.
  by rewrite CallsCollector_visit_spec, ImportCollector_visit_spec.
Qed.

(** ** The alias dictionary: the last binding of an identifier wins *)

Lemma mapping_of_snoc imports b :
  mapping_of (imports ++ [b]) = <[imp_id b := imp_key b]> (mapping_of imports).
Proof. unfold mapping_of. by rewrite fold_left_app. Qed.

Lemma mapping_of_nil : mapping_of [] = ∅.
Proof. done. Qed.

(** A key of the dictionary has the value of the last binding with that
    identifier. *)
Lemma mapping_of_lookup_Some imports x k :
  mapping_of imports !! x = Some k <->
  exists pre b post,
    imports = pre ++ b :: post /\ imp_id b = x /\ imp_key b = k /\
    Forall (fun b' => imp_id b' <> x) post.
Proof.
  revert k. induction imports as [|b imports IH] using rev_ind; intros k.
  - rewrite mapping_of_nil, lookup_empty. split; [done|].
    intros (pre & b & post & H & _). by destruct pre.
  - rewrite mapping_of_snoc, lookup_insert. case_decide as Hid.
    + split.
      * intros [= <-]. exists imports, b, []. repeat split; auto.
      * intros (pre & b' & post & Heq & Hx & Hk & Hpost).
        destruct post as [|c post _] using rev_ind.
        -- apply app_inj_tail in Heq as [_ ->]. by rewrite Hk.
        -- rewrite app_comm_cons, app_assoc in Heq.
           apply app_inj_tail in Heq as [_ ->].
           apply Forall_app in Hpost as [_ Hc].
           rewrite Forall_singleton in Hc. congruence.
    + rewrite IH. split.
      * intros (pre & b' & post & -> & Hx & Hk & Hpost).
        exists pre, b', (post ++ [b]). rewrite <- app_assoc. simpl.
        repeat split; try done.
        apply Forall_app; split; [done|]. by apply Forall_singleton.
      * intros (pre & b' & post & Heq & Hx & Hk & Hpost).
        destruct post as [|c post _] using rev_ind.
        -- apply app_inj_tail in Heq as [_ ->]. done.
        -- rewrite app_comm_cons, app_assoc in Heq.
           apply app_inj_tail in Heq as [-> ->].
           apply Forall_app in Hpost as [Hpost _].
           by exists pre, b', post.
Qed.

Lemma mapping_of_lookup_None imports x :
  mapping_of imports !! x = None <->
  Forall (fun b => imp_id b <> x) imports.
Proof.
  induction imports as [|b imports IH] using rev_ind.
  - by rewrite Forall_nil.
  - rewrite mapping_of_snoc, lookup_insert, Forall_app, Forall_singleton.
    case_decide as Hid.
    + split; [done|]. by intros [_ ?].
    + rewrite IH. tauto.
Qed.


(** ** Hits through a given dictionary *)

Lemma mapping_of_is_Some imports x :
  is_Some (mapping_of imports !! x) <-> x ∈ bound_ids imports.
Proof.
  rewrite <- not_eq_None_Some, mapping_of_lookup_None.
  unfold bound_ids. rewrite list_elem_of_fmap. split.
  - intros Hnot. apply not_Forall_Exists in Hnot; [|apply _].
    apply Exists_exists in Hnot as (b & Hb & Hid).
    exists b. split; [|done]. symmetry. by apply dec_stable.
  - intros (b & -> & Hb) Hall.
    rewrite Forall_forall in Hall. by apply (Hall b).
Qed.

(** One hit per callee that is a key of the dictionary. *)
Lemma omap_lookup_length (ids : gmap string string) (l : list string) :
  length (omap (fun x => ids !! x) l)
  = length (filter (fun x => is_Some (ids !! x)) l).
Proof.
  induction l as [|x l IH]; [done|].
  rewrite filter_cons. case_decide as Hx.
  - destruct Hx as [k Hk]. cbn. rewrite Hk. cbn. by rewrite IH.
  - apply eq_None_not_Some in Hx. cbn. by rewrite Hx.
Qed.

(** Through a dictionary with one key, the callees equal to the key give
    one hit each and the other callees none. *)
Lemma omap_lookup_singleton (t k : string) (l : list string) :
  omap (fun x => ({[t := k]} : gmap string string) !! x) l
  = replicate (length (filter (fun x => x = t) l)) k.
Proof.
  induction l as [|x l IH]; [done|].
  rewrite filter_cons. destruct (decide (x = t)) as [->|Hne]; cbn.
  - rewrite lookup_singleton_eq. cbn. by rewrite IH.
  - rewrite lookup_singleton_ne by done. done.
Qed.

(** With the empty prefix the test of [visit_ImportFrom] is the test that
    the module name is there and not empty. *)
Lemma module_matches_empty_prefix (module : option string) :
  module_matches "" module = opt_truthy module.
Proof.
  destruct module as [m|]; simpl; [|done].
  rewrite str_truthy_eqb. by destruct m.
Qed.

(** ** Counting *)

Lemma counter_get_incr c e k :
  counter_get (counter_incr c e) k
  = if String.eqb e k then S (counter_get c k) else counter_get c k.
Proof.
  induction c as [|[k0 n] c IH]; simpl.
  - done.
  - destruct (String.eqb_spec k0 e) as [->|Hne]; simpl.
    + by destruct (String.eqb_spec e k).
    + destruct (String.eqb_spec k0 k) as [->|Hne']; [|done].
      by destruct (String.eqb_spec e k) as [->|].
Qed.

Lemma counter_get_fold l : forall c k,
  counter_get (fold_left counter_incr l c) k
  = counter_get c k + count_occ string_dec l k.
Proof.
  induction l as [|e l IH]; intros c k; simpl; [lia|].
  rewrite IH, counter_get_incr.
  destruct (String.eqb_spec e k), (string_dec e k); try done; lia.
Qed.

(** The count a [Counter] has for a key is the number of its occurrences. *)
Lemma counter_get_Counter l k :
  counter_get (Counter l) k = count_occ string_dec l k.
Proof. unfold Counter. by rewrite counter_get_fold. Qed.

Lemma counter_incr_keys c e :
  map fst (counter_incr c e)
  = if decide (e ∈ map fst c) then map fst c else map fst c ++ [e].
Proof.
  induction c as [|[k0 n] c IH]; simpl; [done|].
  destruct (String.eqb_spec k0 e) as [->|Hne]; simpl.
  - rewrite decide_True; [done|set_solver].
  - rewrite IH. destruct (decide (e ∈ map fst c)).
    + rewrite decide_True; [done|set_solver].
    + rewrite decide_False; [done|set_solver].
Qed.

Lemma counter_incr_wf c e : counter_wf c -> counter_wf (counter_incr c e).
Proof.
  intros [Hnd Hpos]. split.
  - rewrite counter_incr_keys. case_decide as Hin; [done|].
    apply NoDup_app. split_and!; [done| |apply NoDup_singleton].
    intros x Hx. set_solver.
  - clear Hnd. induction Hpos as [|[k0 n] c Hn Hc IH]; simpl.
    + apply Forall_singleton. simpl. lia.
    + destruct (String.eqb k0 e); constructor; simpl in *; try done; lia.
Qed.

Lemma counter_fold_wf l : forall c,
  counter_wf c -> counter_wf (fold_left counter_incr l c).
Proof.
  induction l as [|e l IH]; intros c Hc; simpl; [done|].
  by apply IH, counter_incr_wf.
Qed.

Lemma Counter_wf l : counter_wf (Counter l).
Proof.
  apply counter_fold_wf. split; [apply NoDup_nil_2|apply Forall_nil_2].
Qed.

(** In a counter without repeated keys an item is there exactly when
    looking its key up gives its count. *)
Lemma counter_wf_elem_of c k n :
  counter_wf c -> ((k, n) ∈ c <-> counter_get c k = n /\ 0 < n).
Proof.
  intros [Hnd Hpos]. induction c as [|[k0 n0] c IH]; simpl.
  - split; [by intros ?%elem_of_nil|lia].
  - simpl in Hnd. apply NoDup_cons in Hnd as [Hk0 Hnd].
    apply Forall_cons in Hpos as [Hn0 Hpos]. simpl in Hn0.
    rewrite elem_of_cons, (IH Hnd Hpos).
    destruct (String.eqb_spec k0 k) as [->|Hne].
    + split.
      * intros [[= ->]|[Hget Hn]]; [done|].
        exfalso. apply Hk0.
        assert ((k, n) ∈ c) as Hin by (by apply IH).
        apply list_elem_of_fmap. by exists (k, n).
      * intros [-> _]. by left.
    + split.
      * intros [[= -> ->]|?]; done.
      * intros ?. by right.
Qed.

(** The items of [Counter l]: the elements of [l], each with the number
    of its occurrences. *)
Lemma Counter_elem_of l k n :
  (k, n) ∈ Counter l <-> k ∈ l /\ n = count_occ string_dec l k.
Proof.
  rewrite (counter_wf_elem_of _ _ _ (Counter_wf l)), counter_get_Counter.
  rewrite list_elem_of_In, (count_occ_In string_dec).
  split; intros [? ?]; subst; split; (done || lia).
Qed.

(** ** Ranking *)

Lemma insert_desc_perm x l : Permutation (insert_desc x l) (x :: l).
Proof.
  induction l as [|y l IH]; simpl; [done|].
  destruct (snd y <=? snd x)%nat; [done|].
  rewrite IH. apply perm_swap.
Qed.


Lemma most_common_perm c : Permutation (most_common c) c.
Proof.
  induction c as [|x c IH]; simpl; [done|].
  by rewrite insert_desc_perm, IH.
Qed.


(** ** The directory walk *)

Section Walk.
Context {Path Exc : Type}.
Variable parse_file : Path -> Exc + node.
Variable module : string.

Lemma scan_tree_app tree hits :
  scan_tree module tree hits = hits ++ scan_tree module tree [].
Proof. by rewrite !scan_tree_spec. Qed.

Lemma get_calls_loop_ok paths : forall hits,
  Forall (parses parse_file) paths ->
  get_calls_loop parse_file paths module hits
  = inr (hits ++ flat_map (file_hits parse_file module) paths).
Proof.
  induction paths as [|p paths IH]; intros hits Hall; simpl.
  - by rewrite app_nil_r.
  - apply Forall_cons in Hall as [[tree Hp] Hall].
    unfold file_hits at 1. rewrite Hp, (IH _ Hall), scan_tree_app.
    by rewrite <- app_assoc.
Qed.

Lemma get_calls_loop_inr paths : forall hits calls,
  get_calls_loop parse_file paths module hits = inr calls ->
  Forall (parses parse_file) paths.
Proof.
  induction paths as [|p paths IH]; intros hits calls Hrun; simpl in Hrun.
  - constructor.
  - destruct (parse_file p) as [e|tree] eqn:Hp; [done|].
    constructor; [by exists tree|by eapply IH].
Qed.

(** The first file that fails ends the loop with its exception,
    whatever was collected before it. *)
Lemma get_calls_loop_raise pre p post e : forall hits,
  Forall (parses parse_file) pre ->
  parse_file p = inl e ->
  get_calls_loop parse_file (pre ++ p :: post) module hits = inl e.
Proof.
  induction pre as [|q pre IH]; intros hits Hpre Hp; simpl.
  - by rewrite Hp.
  - apply Forall_cons in Hpre as [[tree Hq] Hpre].
    rewrite Hq. by apply IH.
Qed.

Lemma get_calls_loop_some_raise paths p e : forall hits,
  p ∈ paths ->
  parse_file p = inl e ->
  exists q e', q ∈ paths /\ parse_file q = inl e' /\
    get_calls_loop parse_file paths module hits = inl e'.
Proof.
  induction paths as [|q paths IH]; intros hits Hin Hp.
  - by apply elem_of_nil in Hin.
  - simpl. destruct (parse_file q) as [e'|tree] eqn:Hq.
    + exists q, e'. split_and!; [apply list_elem_of_here|done|done].
    + apply elem_of_cons in Hin as [->|Hin]; [congruence|].
      destruct (IH (scan_tree module tree hits) Hin Hp) as (q' & e' & ? & ? & ?).
      exists q', e'. split_and!; [by apply list_elem_of_further|done|done].
Qed.
End Walk.

(** Walking the same files in another order permutes the hits, which is
    how C7 bears on the order in which the files are walked. *)
Lemma get_calls_loop_perm {Path Exc : Type} (parse_file : Path -> Exc + node)
    (module : string) (paths1 paths2 : list Path) (calls1 : list string) :
  Permutation paths1 paths2 ->
  get_calls_loop parse_file paths1 module [] = inr calls1 ->
  exists calls2,
    get_calls_loop parse_file paths2 module [] = inr calls2 /\
    Permutation calls1 calls2.
Proof.
  intros Hperm Hrun.
  pose proof (get_calls_loop_inr _ _ _ _ _ Hrun) as Hok1.
  assert (Forall (parses parse_file) paths2) as Hok2 by (by rewrite <- Hperm).
  rewrite (get_calls_loop_ok _ _ _ _ Hok1) in Hrun. injection Hrun as <-.
  eexists. split; [by apply get_calls_loop_ok|].
  simpl. by apply Permutation_flat_map.
Qed.

(** * The properties of the specification *)

Example scan_A : scan_tree "acme.mod" file_A [] = ["acme.mod.foo"; "acme.mod.foo"].
Proof. vm_compute. reflexivity. Qed.

(** C1.  A root with the two files [file_A] ([from acme.mod import foo as f]
    then [f(); f()]) and [file_B] ([from acme.mod import foo] then [foo()]),
    scanned for the prefix ["acme.mod"] in either order, gives the hits
    whose count is exactly [{"acme.mod.foo": 3}], and [main] prints that
    counter. *)
Theorem end_to_end_acme {Path Exc : Type} (glob_py : Path -> list Path)
    (parse_file : Path -> Exc + node) (isdir : Path -> bool) (root a b : Path) :
  isdir root = true ->
  glob_py root = [a; b] \/ glob_py root = [b; a] ->
  parse_file a = inr file_A ->
  parse_file b = inr file_B ->
  (exists calls, get_calls glob_py parse_file root "acme.mod" = inr calls /\
                 Counter calls = [("acme.mod.foo", 3)]) /\
  main glob_py parse_file isdir (mkArgs root "acme.mod" None)
  = PrettyPrinted [("acme.mod.foo", 3)].
Proof.
  intros Hdir Hglob Ha Hb.
  assert (get_calls glob_py parse_file root "acme.mod"
          = inr ["acme.mod.foo"; "acme.mod.foo"; "acme.mod.foo"]) as Hcalls.
  { unfold get_calls.
    destruct Hglob as [-> | ->]; simpl; rewrite ?Ha, ?Hb; simpl;
      rewrite ?Ha, ?Hb; by vm_compute. }
  split.
  - eexists. split; [exact Hcalls|]. by vm_compute.
  - unfold main. simpl. rewrite Hdir, Hcalls. simpl. by vm_compute.
Qed.

Lemma end_to_end_acme_witness :
  let glob_py := fun _ : string => ["a.py"; "b.py"] in
  let parse_file := fun p : string =>
    if String.eqb p "a.py" then inr file_A
    else if String.eqb p "b.py" then inr file_B
    else inl tt in
  main glob_py parse_file (fun _ => true) (mkArgs "root" "acme.mod" None)
  = PrettyPrinted [("acme.mod.foo", 3)].
Proof.
  intros glob_py parse_file.
  apply (end_to_end_acme glob_py parse_file (fun _ => true) "root" "a.py" "b.py");
    [reflexivity | left; reflexivity | reflexivity | reflexivity].
Defined.

(** C2.  For every tree and every target prefix, [ImportCollector] emits
    one binding (module string, original name, optional alias) per
    imported name of exactly the from-import statements whose module name
    is present, non-empty and has the target prefix as a plain string
    prefix, in statement order; the prefix ["foo"] matches the modules
    ["foo"], ["foo.bar"] and also ["foobar"]. *)
Theorem import_resolver_prefix_match (name : string) (tree : node) :
  ImportCollector.visit name tree []
  = concat (map (fun st => if module_matches name (fst st)
                           then bindings_of st else [])
                (from_imports tree))
  /\ module_matches "foo" (Some "foo") = true
  /\ module_matches "foo" (Some "foo.bar") = true
  /\ module_matches "foo" (Some "foobar") = true
  /\ ImportCollector.visit "foo"
       (Module_ [ ImportFrom (Some "foo") [Alias "a" None] 0;
                  ImportFrom (Some "foo.bar") [Alias "b" (Some "c"); Alias "d" None] 0;
                  ImportFrom (Some "foobar") [Alias "e" None] 0;
                  ImportFrom (Some "fo") [Alias "g" None] 0;
                  ImportFrom None [Alias "h" None] 1 ]) []
     = [ mkImport "foo" "a" None;
         mkImport "foo.bar" "b" (Some "c");
         mkImport "foo.bar" "d" None;
         mkImport "foobar" "e" None ].
Proof.
  split_and!; try reflexivity.
  by rewrite ImportCollector_visit_spec.
Qed.

(** C3.  In a file whose collected bindings are the one of
    [from target.sub import thing as t], the alias dictionary has the
    only key [t]; with one call whose callee is [t] the file gives
    exactly the hit ["target.sub.thing"], whatever number of calls of
    [thing] it has, the original name being no key of the dictionary. *)
Theorem aliased_import_tracks_alias_only (module : string) (tree : node) :
  ImportCollector.visit module tree []
  = [mkImport "target.sub" "thing" (Some "t")] ->
  length (filter (fun x => x = "t") (callees tree)) = 1 ->
  mapping_of (ImportCollector.visit module tree [])
  = {["t" := "target.sub.thing"]}
  /\ mapping_of (ImportCollector.visit module tree []) !! "thing" = None
  /\ scan_tree module tree [] = ["target.sub.thing"].
Proof.
  intros Himports Hone.
  assert (mapping_of (ImportCollector.visit module tree [])
          = {["t" := "target.sub.thing"]}) as Hmap.
  { rewrite Himports. unfold mapping_of. simpl. apply insert_empty. }
  split_and!.
  - done.
  - rewrite Hmap. by apply lookup_singleton_ne.
  - unfold scan_tree. rewrite CallsCollector_visit_spec, Hmap.
    rewrite omap_lookup_singleton, Hone. done.
Qed.

Lemma aliased_import_tracks_alias_only_witness :
  scan_tree "target" file_aliased [] = ["target.sub.thing"].
Proof.
  apply (aliased_import_tracks_alias_only "target" file_aliased);
    reflexivity.
Defined.


Example scan_reimport : scan_tree "m" file_reimport [] = ["m.g"].
Proof. by vm_compute. Qed.


(** C5.  A call whose callee is not a bare identifier adds no hit of its
    own (only what the visit of its children adds); a bare [import]
    statement adds no binding; and [import target] followed by
    [target.thing()] gives no hit for any target prefix. *)
Theorem attribute_calls_never_counted (ids : gmap string string)
    (func : node) (args keywords : list node) (hits : list string) :
  is_Name func = false ->
  CallsCollector.visit ids (Call func args keywords) hits
  = fold_left (fun h c => CallsCollector.visit ids c h) keywords
      (fold_left (fun h c => CallsCollector.visit ids c h) args
         (CallsCollector.visit ids func hits))
  /\ (forall name names acc,
        ImportCollector.visit name (Import names) acc = acc)
  /\ (forall module,
        scan_tree module
          (Module_ [ Import [Alias "target" None];
                     Expr (Call (Attribute (Name "target") "thing") [] []) ])
          [] = []).
Proof.
  intros Hfunc. split_and!.
  - simpl. by destruct func.
  - done.
  - done.
Qed.

Lemma attribute_calls_never_counted_witness :
  CallsCollector.visit {["target" := "target.thing"]}
    (Call (Attribute (Name "target") "thing") [] []) []
  = [].
Proof.
  destruct (attribute_calls_never_counted {["target" := "target.thing"]}
              (Attribute (Name "target") "thing") [] [] [] eq_refl)
    as [H _].
  rewrite H. reflexivity.
Defined.

(** C6.  If some file of the tree fails to parse, [get_calls] ends with
    the exception of a failing file and returns no hits, also none of the
    files scanned before it, and [main] ends with that exception instead
    of writing or printing counts. *)
Theorem parse_error_aborts_run {Path Exc : Type} (glob_py : Path -> list Path)
    (parse_file : Path -> Exc + node) (isdir : Path -> bool)
    (args : Args Path) (p : Path) (e : Exc) :
  isdir (args_sources args) = true ->
  p ∈ glob_py (args_sources args) ->
  parse_file p = inl e ->
  exists q e',
    q ∈ glob_py (args_sources args) /\ parse_file q = inl e' /\
    get_calls glob_py parse_file (args_sources args) (args_m args) = inl e' /\
    main glob_py parse_file isdir args = Uncaught e'.
Proof.
  intros Hdir Hin Hp.
  destruct (get_calls_loop_some_raise parse_file (args_m args) _ p e [] Hin Hp)
    as (q & e' & Hq & He' & Hrun).
  exists q, e'. split_and!; try done.
  unfold main, get_calls. by rewrite Hdir, Hrun.
Qed.

Lemma parse_error_aborts_run_witness :
  let glob_py := fun _ : string => ["a.py"; "broken.py"] in
  let parse_file := fun p : string =>
    if String.eqb p "a.py" then inr file_A else inl "SyntaxError" in
  main glob_py parse_file (fun _ => true) (mkArgs "root" "acme.mod" (Some "out.csv"))
  = Uncaught "SyntaxError".
Proof.
  intros glob_py parse_file.
  destruct (parse_error_aborts_run glob_py parse_file (fun _ => true)
              (mkArgs "root" "acme.mod" (Some "out.csv")) "broken.py" "SyntaxError")
    as (q & e' & _ & _ & _ & Hmain).
  - reflexivity.
  - simpl. apply list_elem_of_further, list_elem_of_here.
  - reflexivity.
  - reflexivity.
Defined.

(** C7.  The counts do not depend on the order of the hits: a permutation
    of a hit sequence has the same count for every key, and the same
    items in its counter. *)
Theorem aggregate_order_independent (hits1 hits2 : list string) :
  Permutation hits1 hits2 ->
  (forall key, counter_get (Counter hits1) key = counter_get (Counter hits2) key)
  /\ (forall key n, (key, n) ∈ Counter hits1 <-> (key, n) ∈ Counter hits2).
Proof.
  intros Hperm.
  assert (forall key, count_occ string_dec hits1 key = count_occ string_dec hits2 key)
    as Hocc by (by apply Permutation_count_occ).
  split.
  - intros key. by rewrite !counter_get_Counter.
  - intros key n. rewrite !Counter_elem_of, Hocc.
    by rewrite Hperm.
Qed.

Lemma aggregate_order_independent_witness :
  counter_get (Counter ["m.f"; "m.g"; "m.f"]) "m.f"
  = counter_get (Counter ["m.g"; "m.f"; "m.f"]) "m.f".
Proof.
  apply (aggregate_order_independent ["m.f"; "m.g"; "m.f"] ["m.g"; "m.f"; "m.f"]).
  apply perm_swap.
Defined.



(** C9.  With the empty target prefix every from-import statement whose
    module name is present and non-empty gives its bindings, and every
    call whose callee is a bare identifier bound by one of them gives a
    hit: the file has as many hits as it has such calls. *)
Theorem empty_prefix_tracks_every_from_import (tree : node) :
  let every := concat (map (fun st => if opt_truthy (fst st)
                                      then bindings_of st else [])
                           (from_imports tree)) in
  ImportCollector.visit "" tree [] = every
  /\ (forall m names level acc,
        m <> "" ->
        ImportCollector.visit "" (ImportFrom (Some m) names level) acc
        = acc ++ map (fun a => mkImport m (alias_name a) (alias_asname a)) names)
  /\ (forall x,
        x ∈ callees tree -> x ∈ bound_ids every ->
        exists key, mapping_of every !! x = Some key /\
                    key ∈ scan_tree "" tree [])
  /\ length (scan_tree "" tree [])
     = length (filter (fun x => x ∈ bound_ids every) (callees tree)).
Proof.
  intros every.
  assert (ImportCollector.visit "" tree [] = every) as Hevery.
  { rewrite ImportCollector_visit_spec. simpl. unfold selected_bindings, every.
    f_equal. apply map_ext. intros st. by rewrite module_matches_empty_prefix. }
  assert (scan_tree "" tree []
          = omap (fun x => mapping_of every !! x) (callees tree)) as Hscan.
  { unfold scan_tree. by rewrite CallsCollector_visit_spec, Hevery. }
  split_and!.
  - done.
  - intros m names level acc Hm. simpl.
    unfold ImportCollector.visit_ImportFrom, startswith.
    destruct m; [done|]. done.
  - intros x Hcall Hbound.
    apply mapping_of_is_Some in Hbound as [key Hkey].
    exists key. split; [done|].
    rewrite Hscan. apply list_elem_of_omap. by exists x.
  - rewrite Hscan, omap_lookup_length.
    f_equal. apply list_filter_iff. intros x. apply mapping_of_is_Some.
Qed.

Example scan_any_module :
  scan_tree "" file_any_module [] = ["os.path.join"; "json.dumps"].
Proof. by vm_compute. Qed.

Lemma empty_prefix_tracks_every_from_import_witness :
  exists key,
    mapping_of (ImportCollector.visit "" file_any_module []) !! "d" = Some key
    /\ key ∈ scan_tree "" file_any_module [].
Proof.
  destruct (empty_prefix_tracks_every_from_import file_any_module)
    as (Hevery & _ & Hcounted & _).
  rewrite Hevery. apply Hcounted.
  - vm_compute. apply list_elem_of_further, list_elem_of_here.
  - vm_compute. apply list_elem_of_further, list_elem_of_here.
Defined.

(** C10.  The dictionary of a file is built from all its imports before
    its calls are scanned: a call whose callee is a key of that
    dictionary gives a hit wherever it stands, moving a from-import
    statement from behind statements without from-imports to the front
    of them changes no hit, and a call that stands before the import of
    its callee is counted. *)
Theorem call_before_import_counted (module : string) (m : option string)
    (names : list alias) (level : nat) (body1 body2 : list node) :
  concat (map from_imports body1) = [] ->
  scan_tree module (Module_ (body1 ++ ImportFrom m names level :: body2)) []
  = scan_tree module (Module_ (ImportFrom m names level :: body1 ++ body2)) []
  /\ (forall tree x key,
        x ∈ callees tree ->
        mapping_of (ImportCollector.visit module tree []) !! x = Some key ->
        key ∈ scan_tree module tree [])
  /\ scan_tree "m"
       (Module_ [ Expr (Call (Name "f") [] []);
                  ImportFrom (Some "m") [Alias "f" None] 0 ]) []
     = ["m.f"].
Proof.
  intros Hbody1. split_and!.
  - rewrite !scan_tree_spec. unfold Module_. simpl.
    rewrite !map_app, !concat_app. simpl. by rewrite Hbody1.
  - intros tree x key Hcall Hkey.
    unfold scan_tree. rewrite CallsCollector_visit_spec. simpl.
    apply list_elem_of_omap. by exists x.
  - by vm_compute.
Qed.

Lemma call_before_import_counted_witness :
  scan_tree "m"
    (Module_ ([Expr (Call (Name "f") [] [])]
              ++ ImportFrom (Some "m") [Alias "f" None] 0
              :: [Expr (Call (Name "f") [Name "f"] [])])) []
  = scan_tree "m"
      (Module_ (ImportFrom (Some "m") [Alias "f" None] 0
                :: [Expr (Call (Name "f") [] [])]
                ++ [Expr (Call (Name "f") [Name "f"] [])])) [].
Proof.
  apply (call_before_import_counted "m" (Some "m") [Alias "f" None] 0
           [Expr (Call (Name "f") [] [])]
           [Expr (Call (Name "f") [Name "f"] [])]).
  reflexivity.
Defined.

(** * Further properties of the code *)

(** ** [main]: the directory check and the output option *)


(** X2.  An empty [-o] value is falsy: the run behaves as one without
    the option and writes no file. *)
Theorem empty_output_name_prints {Path Exc : Type} (glob_py : Path -> list Path)
    (parse_file : Path -> Exc + node) (isdir : Path -> bool)
    (root : Path) (module : string) :
  main glob_py parse_file isdir (mkArgs root module (Some ""))
  = main glob_py parse_file isdir (mkArgs root module None)
  /\ (forall file rows,
        main glob_py parse_file isdir (mkArgs root module (Some ""))
        <> CsvWritten file rows).
Proof.
  unfold main; simpl.
  destruct (isdir root); simpl; [|by split].
  destruct (get_calls _ _ _ _); by split.
Qed.

(** ** One file *)

Lemma elem_of_selected_bindings name stmts b :
  b ∈ selected_bindings name stmts <->
  exists st, st ∈ stmts /\ module_matches name (fst st) = true /\
             b ∈ bindings_of st.
Proof.
  unfold selected_bindings. induction stmts as [|st stmts IH]; simpl.
  - split; [by intros ?%elem_of_nil|]. by intros (? & ?%elem_of_nil & _).
  - rewrite elem_of_app, IH. split.
    + intros [Hb|(st' & ? & ? & ?)].
      * destruct (module_matches name (fst st)) eqn:Hm;
          [|by apply elem_of_nil in Hb].
        exists st. split_and!; [apply list_elem_of_here|done|done].
      * exists st'. split_and!; [by apply list_elem_of_further|done|done].
    + intros (st' & [->|Hin]%elem_of_cons & Hm & Hb).
      * left. by rewrite Hm.
      * right. by exists st'.
Qed.

Lemma selected_bindings_none name stmts :
  Forall (fun st => module_matches name (fst st) = false) stmts ->
  selected_bindings name stmts = [].
Proof.
  unfold selected_bindings. induction 1 as [|st stmts Hst _ IH]; simpl; [done|].
  by rewrite Hst, IH.
Qed.

Lemma omap_lookup_empty (l : list string) :
  omap (fun x => (∅ : gmap string string) !! x) l = [].
Proof. induction l as [|x l IH]; [done|]. cbn. by rewrite lookup_empty. Qed.

(** X3.  A file none of whose from-import statements passes the test of
    [visit_ImportFrom] adds no hit, whatever calls it has. *)
Theorem no_matching_import_no_hits (module : string) (tree : node)
    (hits : list string) :
  Forall (fun st => module_matches module (fst st) = false) (from_imports tree) ->
  scan_tree module tree hits = hits.
Proof.
  intros Hnone. rewrite scan_tree_spec, selected_bindings_none by done.
  by rewrite mapping_of_nil, omap_lookup_empty, app_nil_r.
Qed.

Lemma no_matching_import_no_hits_witness :
  scan_tree "acme" file_any_module ["earlier"] = ["earlier"].
Proof.
  apply (no_matching_import_no_hits "acme" file_any_module ["earlier"]).
  repeat constructor.
Defined.

(** The bindings [ImportCollector] gives: each is one imported name of a
    from-import statement of the tree that passes the test. *)
Lemma elem_of_ImportCollector_visit module tree b :
  b ∈ ImportCollector.visit module tree [] ->
  exists names,
    (Some (imp_module b), names) ∈ from_imports tree /\
    Alias (imp_name b) (imp_asname b) ∈ names /\
    imp_module b <> "" /\ startswith (imp_module b) module = true.
Proof.
  rewrite ImportCollector_visit_spec. simpl.
  intros ([[m|] names] & Hst & Hm & Hb)%elem_of_selected_bindings;
    simpl in *; [|done].
  unfold bindings_of in Hb. simpl in Hb.
  apply list_elem_of_fmap in Hb as ([n a] & -> & Ha). simpl.
  apply andb_prop in Hm as [Hne Hpre].
  exists names. split_and!; try done.
  intros ->. done.
Qed.

(** Where a hit of a file comes from. *)
Lemma scan_tree_hit_origin (module : string) (tree : node) (hit : string) :
  hit ∈ scan_tree module tree [] ->
  exists (m : string) (names : list alias) (name : string)
         (asname : option string),
    hit = (m ++ "." ++ name)%string /\
    (Some m, names) ∈ from_imports tree /\
    Alias name asname ∈ names /\
    m <> "" /\ startswith m module = true.
Proof.
  unfold scan_tree. rewrite CallsCollector_visit_spec. simpl.
  intros (x & _ & Hx)%list_elem_of_omap.
  apply mapping_of_lookup_Some in Hx as (pre & b & post & Heq & _ & Hk & _).
  assert (b ∈ ImportCollector.visit module tree []) as Hb.
  { rewrite Heq. apply elem_of_app. right. apply list_elem_of_here. }
  apply elem_of_ImportCollector_visit in Hb as (names & ? & ? & ? & ?).
  exists (imp_module b), names, (imp_name b), (imp_asname b).
  split_and!; try done.
Qed.

(** X4.  Every hit of a file is [module.name] for an imported name of one
    of its from-import statements whose module is not empty and starts
    with the target prefix: the scan reports no key from elsewhere. *)
Theorem hits_are_keys_under_prefix (module : string) (tree : node) (hit : string) :
  hit ∈ scan_tree module tree [] ->
  exists (m : string) (names : list alias) (name : string)
         (asname : option string),
    hit = (m ++ "." ++ name)%string /\
    (Some m, names) ∈ from_imports tree /\
    Alias name asname ∈ names /\
    m <> "" /\ startswith m module = true.
Proof. apply scan_tree_hit_origin. Qed.

Lemma hits_are_keys_under_prefix_witness :
  exists (m : string) (names : list alias) (name : string)
         (asname : option string),
    "json.dumps" = (m ++ "." ++ name)%string /\
    (Some m, names) ∈ from_imports file_any_module /\
    Alias name asname ∈ names /\
    m <> "" /\ startswith m "" = true.
Proof.
  apply (hits_are_keys_under_prefix "" file_any_module "json.dumps").
  vm_compute. apply list_elem_of_further, list_elem_of_here.
Defined.

(** X5.  A call gives at most one hit: a file adds no more hits than it
    has calls whose callee is a bare identifier, and the hits that were
    there stay in front, unchanged. *)
Theorem hits_bounded_by_calls (module : string) (tree : node)
    (hits : list string) :
  length (scan_tree module tree hits) <= length hits + length (callees tree)
  /\ take (length hits) (scan_tree module tree hits) = hits.
Proof.
  rewrite scan_tree_spec. split.
  - rewrite length_app, omap_lookup_length.
    pose proof (length_filter
      (fun x => is_Some (mapping_of (selected_bindings module (from_imports tree)) !! x))
      (callees tree)). lia.
  - by rewrite take_app_length.
Qed.

(** ** The walk over the files *)

(** X6.  [get_calls] returns a list exactly when every file the glob
    yields parses, and the list is then the hits of the files one after
    the other in glob order, each file scanned with its own dictionary:
    a binding of one file counts no call of another. *)
Theorem get_calls_concatenates_files {Path Exc : Type}
    (glob_py : Path -> list Path) (parse_file : Path -> Exc + node)
    (root : Path) (module : string) (calls : list string) :
  get_calls glob_py parse_file root module = inr calls <->
  Forall (parses parse_file) (glob_py root) /\
  calls = flat_map (file_hits parse_file module) (glob_py root).
Proof.
  unfold get_calls. split.
  - intros Hrun.
    pose proof (get_calls_loop_inr _ _ _ _ _ Hrun) as Hok.
    rewrite (get_calls_loop_ok _ _ _ _ Hok) in Hrun.
    by injection Hrun as <-.
  - intros [Hok ->]. by rewrite (get_calls_loop_ok _ _ _ _ Hok).
Qed.

(** X7.  The exception that ends the run is the one of the first file,
    in glob order, that fails: the files before it were scanned in vain
    and the files after it are never looked at, so that neither their
    hits nor their own failures show. *)
Theorem first_failure_decides {Path Exc : Type}
    (glob_py : Path -> list Path) (parse_file : Path -> Exc + node)
    (isdir : Path -> bool) (args : Args Path)
    (pre post : list Path) (p : Path) (e : Exc) :
  isdir (args_sources args) = true ->
  glob_py (args_sources args) = pre ++ p :: post ->
  Forall (parses parse_file) pre ->
  parse_file p = inl e ->
  get_calls glob_py parse_file (args_sources args) (args_m args) = inl e
  /\ main glob_py parse_file isdir args = Uncaught e.
Proof.
  intros Hdir Hglob Hpre Hp.
  assert (get_calls glob_py parse_file (args_sources args) (args_m args)
          = inl e) as Hrun.
  { unfold get_calls. rewrite Hglob. by apply get_calls_loop_raise. }
  split; [done|]. unfold main. by rewrite Hdir, Hrun.
Qed.

Lemma first_failure_decides_witness :
  let glob_py := fun _ : string => ["a.py"; "bad1.py"; "bad2.py"] in
  let parse_file := fun p : string =>
    if String.eqb p "a.py" then inr file_A else inl p in
  main glob_py parse_file (fun _ => true) (mkArgs "root" "acme.mod" None)
  = Uncaught "bad1.py".
Proof.
  intros glob_py parse_file.
  apply (first_failure_decides glob_py parse_file (fun _ => true)
           (mkArgs "root" "acme.mod" None) ["a.py"] ["bad2.py"] "bad1.py" "bad1.py").
  - reflexivity.
  - reflexivity.
  - repeat constructor. by exists file_A.
  - reflexivity.
Defined.

(** ** The counter and its ranking *)

Lemma counter_incr_sum c e :
  sum_list_with snd (counter_incr c e) = S (sum_list_with snd c).
Proof.
  induction c as [|[k n] c IH]; simpl; [done|].
  destruct (String.eqb k e); simpl; [done|]. rewrite IH. lia.
Qed.

Lemma counter_fold_sum l : forall c,
  sum_list_with snd (fold_left counter_incr l c)
  = sum_list_with snd c + length l.
Proof.
  induction l as [|e l IH]; intros c; simpl; [lia|].
  rewrite IH, counter_incr_sum. lia.
Qed.

(** X8.  The counts of the report add up to the number of hits: no hit
    is lost or counted twice by [Counter] and [most_common]. *)
Theorem counts_sum_to_hits (calls : list string) :
  sum_list_with snd (Counter calls) = length calls
  /\ sum_list_with snd (most_common (Counter calls)) = length calls.
Proof.
  assert (sum_list_with snd (Counter calls) = length calls) as Hsum.
  { unfold Counter. by rewrite counter_fold_sum. }
  split; [done|]. by rewrite most_common_perm.
Qed.





Lemma insert_desc_filter (n : nat) x l :
  filter (fun r : string * nat => snd r = n) (insert_desc x l)
  = filter (fun r : string * nat => snd r = n) (x :: l).
Proof.
  induction l as [|y l IH]; simpl; [done|].
  destruct (Nat.leb_spec (snd y) (snd x)) as [Hle|Hlt]; [done|].
  rewrite (filter_cons _ y), IH, !(filter_cons _ x), (filter_cons _ y).
  destruct (decide (snd x = n)), (decide (snd y = n)); try done; lia.
Qed.

Lemma Counter_keys l k : k ∈ map fst (Counter l) <-> k ∈ l.
Proof.
  rewrite list_elem_of_fmap. split.
  - intros ([k' n] & -> & Hin). by apply Counter_elem_of in Hin as [? _].
  - intros Hin. exists (k, count_occ string_dec l k).
    split; [done|]. by apply Counter_elem_of.
Qed.

(** X10.  The counter keeps its keys in the order in which they were
    first hit (a new key goes to the end, a known key stays where it
    is), and the ranking is stable: the rows with one and the same
    count stand in that order. *)
Theorem most_common_stable (calls : list string) (hit : string) (n : nat) :
  map fst (Counter (calls ++ [hit]))
  = (if decide (hit ∈ calls) then map fst (Counter calls)
     else map fst (Counter calls) ++ [hit])
  /\ filter (fun r : string * nat => snd r = n) (most_common (Counter calls))
     = filter (fun r : string * nat => snd r = n) (Counter calls).
Proof.
  split.
  - unfold Counter at 1. rewrite fold_left_app. simpl.
    fold (Counter calls). rewrite counter_incr_keys.
    destruct (decide (hit ∈ calls)) as [Hin|Hin].
    + rewrite decide_True; [done|by apply Counter_keys].
    + rewrite decide_False; [done|by rewrite Counter_keys].
  - induction (Counter calls) as [|x c IH]; simpl; [done|].
    by rewrite insert_desc_filter, !filter_cons, IH.
Qed.

(** ** Imports that do not matter, and the choice of the prefix *)

(** The dictionary of two lists of bindings, one after the other: the
    later list decides where it has the key. *)
Lemma mapping_of_app l1 l2 x :
  mapping_of (l1 ++ l2) !! x
  = match mapping_of l2 !! x with
    | Some k => Some k
    | None => mapping_of l1 !! x
    end.
Proof.
  induction l2 as [|b l2 IH] using rev_ind.
  - by rewrite app_nil_r, mapping_of_nil, lookup_empty.
  - rewrite app_assoc, !mapping_of_snoc, !lookup_insert.
    case_decide; [done|apply IH].
Qed.

Lemma omap_ext_Forall {A B} (f g : A -> option B) (l : list A) :
  Forall (fun x => f x = g x) l -> omap f l = omap g l.
Proof.
  induction 1 as [|x l Hx _ IH]; [done|]. cbn. by rewrite Hx, IH.
Qed.

(** X11.  A from-import statement none of whose local identifiers is the
    callee of a call of the file changes no hit of the file, wherever it
    stands; so a wildcard import, whose only identifier is [*], changes
    none in a file without a callee of that name. *)
Theorem unused_import_changes_nothing (module : string) (m : option string)
    (names : list alias) (level : nat) (body1 body2 : list node)
    (hits : list string) :
  (forall x, x ∈ concat (map callees (body1 ++ body2)) ->
             x ∉ bound_ids (bindings_of (m, names))) ->
  scan_tree module (Module_ (body1 ++ ImportFrom m names level :: body2)) hits
  = scan_tree module (Module_ (body1 ++ body2)) hits.
Proof.
  intros Hunused. rewrite !scan_tree_spec. unfold Module_. simpl.
  f_equal.
  assert (concat (map callees (body1 ++ ImportFrom m names level :: body2))
          = concat (map callees (body1 ++ body2))) as ->.
  { by rewrite !map_app, !concat_app. }
  apply omap_ext_Forall, Forall_forall. intros x Hx.
  rewrite !map_app, !concat_app. simpl.
  change ((m, names) :: concat (map from_imports body2))
    with ([(m, names)] ++ concat (map from_imports body2)).
  rewrite !selected_bindings_app, !mapping_of_app.
  destruct (mapping_of (selected_bindings module
              (concat (map from_imports body2))) !! x); [done|].
  assert (mapping_of (selected_bindings module [(m, names)]) !! x = None) as ->.
  { apply mapping_of_lookup_None, Forall_forall. intros b Hb Hid.
    apply elem_of_selected_bindings in Hb as (st & ->%list_elem_of_singleton & _ & Hb).
    apply (Hunused x Hx). unfold bound_ids.
    apply list_elem_of_fmap. by exists b. }
  done.
Qed.

Lemma unused_import_changes_nothing_witness :
  scan_tree "acme"
    (Module_ ([ImportFrom (Some "acme.mod") [Alias "foo" None] 0]
              ++ ImportFrom (Some "acme.all") [Alias "*" None] 0
              :: [Expr (Call (Name "foo") [] [])])) []
  = scan_tree "acme"
      (Module_ ([ImportFrom (Some "acme.mod") [Alias "foo" None] 0]
                ++ [Expr (Call (Name "foo") [] [])])) [].
Proof.
  apply (unused_import_changes_nothing "acme" (Some "acme.all")
           [Alias "*" None] 0
           [ImportFrom (Some "acme.mod") [Alias "foo" None] 0]
           [Expr (Call (Name "foo") [] [])] []).
  intros x Hx Hbound. vm_compute in Hx, Hbound.
  apply list_elem_of_singleton in Hx, Hbound. congruence.
Defined.

Lemma prefix_trans (p1 p2 s : string) :
  String.prefix p1 p2 = true -> String.prefix p2 s = true ->
  String.prefix p1 s = true.
Proof.
  revert p2 s. induction p1 as [|c p1 IH]; intros p2 s H12 H2s;
    [by destruct s|].
  destruct p2 as [|c2 p2]; [by simpl in H12|].
  destruct s as [|c3 s]; [by simpl in H2s|].
  simpl in *.
  destruct (ascii_dec c c2) as [->|]; [|done].
  destruct (ascii_dec c2 c3) as [->|]; [|done].
  by apply (IH p2 s).
Qed.

Lemma module_matches_narrower (p1 p2 : string) (module : option string) :
  String.prefix p1 p2 = true ->
  module_matches p2 module = true -> module_matches p1 module = true.
Proof.
  intros H12. destruct module as [m|]; simpl; [|done].
  intros [Hne Hpre]%andb_prop. rewrite Hne. simpl.
  by apply (prefix_trans p1 p2 m).
Qed.

Lemma selected_bindings_narrower (p1 p2 : string) stmts :
  String.prefix p1 p2 = true ->
  sublist (selected_bindings p2 stmts) (selected_bindings p1 stmts).
Proof.
  intros H12. unfold selected_bindings.
  induction stmts as [|st stmts IH]; simpl; [done|].
  apply sublist_app; [|done].
  destruct (module_matches p2 (fst st)) eqn:Hm.
  - by rewrite (module_matches_narrower p1 p2 _ H12 Hm).
  - apply sublist_nil_l.
Qed.

Lemma length_filter_mono {A} (P Q : A -> Prop)
    `{!forall x, Decision (P x)} `{!forall x, Decision (Q x)} (l : list A) :
  (forall x, P x -> Q x) -> length (filter P l) <= length (filter Q l).
Proof.
  intros HPQ. induction l as [|x l IH]; [done|].
  rewrite !filter_cons.
  destruct (decide (P x)) as [HP|HP].
  - rewrite decide_True by auto. simpl. lia.
  - destruct (decide (Q x)); simpl; lia.
Qed.

(** X12.  A longer target prefix selects fewer imports: when [p1] is a
    prefix of [p2], the bindings collected for [p2] are a sub-sequence
    of those collected for [p1], and a file has no more hits for [p2]
    than for [p1]. *)
Theorem narrower_prefix_fewer_hits (p1 p2 : string) (tree : node) :
  String.prefix p1 p2 = true ->
  sublist (ImportCollector.visit p2 tree []) (ImportCollector.visit p1 tree [])
  /\ length (scan_tree p2 tree []) <= length (scan_tree p1 tree []).
Proof.
  intros H12.
  assert (sublist (ImportCollector.visit p2 tree [])
                  (ImportCollector.visit p1 tree [])) as Hsub.
  { rewrite !ImportCollector_visit_spec. simpl.
    by apply selected_bindings_narrower. }
  split; [done|].
  unfold scan_tree. rewrite !CallsCollector_visit_spec. simpl.
  rewrite !omap_lookup_length.
  apply length_filter_mono. intros x.
  rewrite !mapping_of_is_Some. unfold bound_ids.
  intros Hx. eapply elem_of_sublist; [exact Hx|].
  by apply fmap_sublist.
Qed.

Lemma narrower_prefix_fewer_hits_witness :
  length (scan_tree "json" file_any_module [])
  <= length (scan_tree "" file_any_module []).
Proof.
  apply (narrower_prefix_fewer_hits "" "json" file_any_module).
  reflexivity.
Defined.

(** ** Keys *)

Lemma append_nil_l (t : string) : (EmptyString ++ t)%string = t.
Proof. reflexivity. Qed.

Lemma append_cons_l (c : ascii) (s t : string) :
  (String c s ++ t)%string = String c (s ++ t)%string.
Proof. reflexivity. Qed.

Lemma has_dot_app (a b : string) : has_dot (a ++ "." ++ b)%string = true.
Proof.
  induction a as [|c a IH].
  - reflexivity.
  - change (Ascii.eqb c "."%char || has_dot (a ++ "." ++ b)%string = true).
    by rewrite IH, orb_true_r.
Qed.

Lemma key_split_unique (m1 m2 n1 n2 : string) :
  has_dot n1 = false -> has_dot n2 = false ->
  (m1 ++ "." ++ n1)%string = (m2 ++ "." ++ n2)%string ->
  m1 = m2 /\ n1 = n2.
Proof.
  intros Hn1 Hn2. revert m2.
  induction m1 as [|c m1 IH]; intros [|c2 m2] Heq;
    rewrite ?append_nil_l, ?append_cons_l, ?append_nil_l in Heq.
  - by injection Heq as ->.
  - injection Heq as _ Heq.
    assert (has_dot n1 = true) by (rewrite Heq; apply has_dot_app).
    congruence.
  - injection Heq as _ Heq.
    assert (has_dot n2 = true) by (rewrite <- Heq; apply has_dot_app).
    congruence.
  - injection Heq as -> Heq. destruct (IH _ Heq) as [-> ->]. done.
Qed.

(** X13.  The key tells the origin: two bindings whose imported names
    have no dot (as identifiers and the wildcard have none) and whose
    keys are equal have the same module and the same name, whatever their
    aliases; counts of different origins are not merged under one key. *)
Theorem key_determines_origin (b1 b2 : ImportRec) :
  has_dot (imp_name b1) = false ->
  has_dot (imp_name b2) = false ->
  imp_key b1 = imp_key b2 ->
  imp_module b1 = imp_module b2 /\ imp_name b1 = imp_name b2.
Proof. intros H1 H2. unfold imp_key. by apply key_split_unique. Qed.

Lemma key_determines_origin_witness :
  imp_module (mkImport "a.b" "c" (Some "x")) = imp_module (mkImport "a.b" "c" None)
  /\ imp_name (mkImport "a.b" "c" (Some "x")) = imp_name (mkImport "a.b" "c" None).
Proof.
  apply (key_determines_origin (mkImport "a.b" "c" (Some "x"))
                               (mkImport "a.b" "c" None));
    reflexivity.
Defined.

(** ** The visitors and their accumulators *)

Lemma fold_visit_concat {A} (f : node -> list A -> list A) (l : list node) :
  (forall c a, f c a = a ++ f c []) ->
  forall a, fold_left (fun a c => f c a) l a
            = a ++ concat (map (fun c => f c []) l).
Proof.
  intros Hf. induction l as [|c l IH]; intros a; simpl.
  - by rewrite app_nil_r.
  - by rewrite IH, Hf, <- app_assoc.
Qed.

Lemma ImportCollector_visit_app name n acc :
  ImportCollector.visit name n acc = acc ++ ImportCollector.visit name n [].
Proof. by rewrite !ImportCollector_visit_spec. Qed.

Lemma CallsCollector_visit_app (ids : gmap string string) n hits :
  CallsCollector.visit ids n hits = hits ++ CallsCollector.visit ids n [].
Proof. by rewrite !CallsCollector_visit_spec. Qed.

(** X14.  Both visitors only append to the list they are given, and what
    they append does not depend on what the list holds; the hits of a
    call of a tracked identifier are its own hit first, then those of
    its arguments, then those of its keyword arguments, so that calls
    nested in the arguments of a call are counted. *)
Theorem visitors_only_append (name : string) (ids : gmap string string)
    (n : node) (acc : list ImportRec) (hits : list string) :
  ImportCollector.visit name n acc = acc ++ ImportCollector.visit name n []
  /\ CallsCollector.visit ids n hits = hits ++ CallsCollector.visit ids n []
  /\ (forall id key args keywords,
        ids !! id = Some key ->
        CallsCollector.visit ids (Call (Name id) args keywords) hits
        = hits ++ [key]
          ++ concat (map (fun c => CallsCollector.visit ids c []) args)
          ++ concat (map (fun c => CallsCollector.visit ids c []) keywords)).
Proof.
  split_and!.
  - apply ImportCollector_visit_app.
  - apply CallsCollector_visit_app.
  - intros id key args keywords Hkey. simpl. rewrite Hkey.
    rewrite !(fold_visit_concat (CallsCollector.visit ids))
      by (intros; apply CallsCollector_visit_app).
    by rewrite <- !app_assoc.
Qed.

(** ** What a report can hold *)

Lemma prefix_app (p s t : string) :
  String.prefix p s = true -> String.prefix p (s ++ t)%string = true.
Proof.
  revert s. induction p as [|c p IH]; intros s Hp.
  - by destruct (s ++ t)%string.
  - destruct s as [|c2 s]; [by simpl in Hp|]. simpl in *.
    destruct (ascii_dec c c2); [by apply IH|done].
Qed.

Lemma get_calls_hit_origin {Path Exc : Type} (glob_py : Path -> list Path)
    (parse_file : Path -> Exc + node) (root : Path) (module : string)
    (calls : list string) (hit : string) :
  get_calls glob_py parse_file root module = inr calls ->
  hit ∈ calls ->
  exists path tree,
    path ∈ glob_py root /\ parse_file path = inr tree /\
    hit ∈ scan_tree module tree [].
Proof.
  unfold get_calls. intros Hrun Hhit.
  pose proof (get_calls_loop_inr _ _ _ _ _ Hrun) as Hok.
  rewrite (get_calls_loop_ok _ _ _ _ Hok) in Hrun. injection Hrun as <-.
  simpl in Hhit. apply list_elem_of_In, in_flat_map in Hhit as (path & Hpath & Hin).
  apply list_elem_of_In in Hpath, Hin.
  unfold file_hits in Hin. destruct (parse_file path) as [e|tree] eqn:Hp.
  - by apply elem_of_nil in Hin.
  - by exists path, tree.
Qed.

(** X15.  Whatever [main] writes or prints, every key of it starts with
    the target prefix, is the key of an import of one of the files, and
    has a count of at least one. *)
Theorem report_rows_under_prefix {Path Exc : Type}
    (glob_py : Path -> list Path) (parse_file : Path -> Exc + node)
    (isdir : Path -> bool) (args : Args Path)
    (rows : list (string * nat)) (key : string) (n : nat) :
  (exists file, main glob_py parse_file isdir args = CsvWritten file rows)
  \/ main glob_py parse_file isdir args = PrettyPrinted rows ->
  (key, n) ∈ rows ->
  String.prefix (args_m args) key = true
  /\ 0 < n
  /\ exists path tree,
       path ∈ glob_py (args_sources args) /\ parse_file path = inr tree /\
       key ∈ scan_tree (args_m args) tree [].
Proof.
  intros Hmain Hrow. unfold main in Hmain.
  destruct (isdir (args_sources args));
    [|by destruct Hmain as [[? [=]]|[=]]].
  simpl in Hmain.
  destruct (get_calls glob_py parse_file (args_sources args) (args_m args))
    as [e|calls] eqn:Hrun; [by destruct Hmain as [[? [=]]|[=]]|].
  assert ((key, n) ∈ Counter calls) as Hin.
  { destruct (args_o args) as [file|]; [destruct (str_truthy file)|].
    - destruct Hmain as [[f [= _ <-]]|[=]]. by rewrite most_common_perm in Hrow.
    - by destruct Hmain as [[f [=]]|[= <-]].
    - by destruct Hmain as [[f [=]]|[= <-]]. }
  apply Counter_elem_of in Hin as [Hkey ->].
  destruct (get_calls_hit_origin _ _ _ _ _ _ Hrun Hkey)
    as (path & tree & Hpath & Hparse & Hhit).
  split_and!.
  - apply scan_tree_hit_origin in Hhit
      as (m & names & name & asname & -> & _ & _ & _ & Hpre).
    by apply prefix_app.
  - by apply (count_occ_In string_dec), list_elem_of_In.
  - by exists path, tree.
Qed.

Lemma report_rows_under_prefix_witness :
  let glob_py := fun _ : string => ["a.py"; "b.py"] in
  let parse_file := fun p : string =>
    if String.eqb p "a.py" then inr file_A
    else if String.eqb p "b.py" then inr file_B
    else @inl unit node tt in
  String.prefix "acme.mod" "acme.mod.foo" = true /\ 0 < 3.
Proof.
  intros glob_py parse_file.
  destruct (report_rows_under_prefix glob_py parse_file (fun _ => true)
              (mkArgs "root" "acme.mod" None) [("acme.mod.foo", 3)]
              "acme.mod.foo" 3)
    as (Hpre & Hpos & _).
  - right. by vm_compute.
  - apply list_elem_of_here.
  - split; assumption.
Defined.

(** ** The alias dictionary as a whole *)

(** X16.  The dictionary of a file has as keys exactly the local
    identifiers its bindings introduce, so no more entries than there
    are bindings, and every value of it is the key of one of them. *)
Theorem alias_map_keys (imports : list ImportRec) :
  dom (mapping_of imports) = list_to_set (bound_ids imports)
  /\ size (mapping_of imports) <= length imports
  /\ (forall x key, mapping_of imports !! x = Some key ->
        exists b, b ∈ imports /\ imp_id b = x /\ imp_key b = key).
Proof.
  split_and!.
  - apply set_eq. intros x.
    by rewrite elem_of_dom, mapping_of_is_Some, elem_of_list_to_set.
  - induction imports as [|b imports IH] using rev_ind; [done|].
    rewrite mapping_of_snoc, length_app. simpl.
    destruct (mapping_of imports !! imp_id b) eqn:Hb.
    + rewrite map_size_insert_Some by done. lia.
    + rewrite map_size_insert_None by done. lia.
  - intros x key (pre & b & post & -> & ? & ? & _)%mapping_of_lookup_Some.
    exists b. split_and!; try done.
    apply elem_of_app. right. apply list_elem_of_here.
Qed.


Lemma get_calls_concatenates_files_witness :
  let glob_py := fun _ : string => ["a.py"; "b.py"] in
  let parse_file := fun p : string =>
    if String.eqb p "a.py" then inr file_A
    else if String.eqb p "b.py" then inr file_B
    else @inl unit node tt in
  get_calls glob_py parse_file "root" "acme.mod"
  = inr (flat_map (file_hits parse_file "acme.mod") ["a.py"; "b.py"]).
Proof.
  intros glob_py parse_file.
  apply (get_calls_concatenates_files glob_py parse_file "root" "acme.mod").
  split; [|reflexivity].
  repeat constructor; eexists; reflexivity.
Defined.

Lemma visitors_only_append_witness :
  CallsCollector.visit {["f" := "m.f"]}
    (Call (Name "f") [Call (Name "f") [] []] []) ["earlier"]
  = ["earlier"; "m.f"; "m.f"].
Proof.
  destruct (visitors_only_append "m" {["f" := "m.f"]}
              (Name "f") [] ["earlier"]) as (_ & _ & Hcall).
  rewrite (Hcall "f" "m.f" [Call (Name "f") [] []] []); reflexivity.
Defined.
